(** * How to stream LLM tokens from specific nodes

    A shallow embedding of the code cells of
    [docs/docs/how-tos/streaming-specific-nodes.ipynb] and the properties
    the specification states about them.

    The notebook is a linear script: it reads a credential from the
    process environment (asking for it when absent), defines two node
    functions that call a chat model, chains four builder calls into a
    graph, and prints the tokens streamed by one of the two nodes.

    Everything the script touches from the outside (the process
    environment, the terminal behind [getpass], the chat model, the heap
    of Python dictionaries, standard output) is a field of one [World]
    record, and the statements of the script are computations in a
    state-and-exception monad over that record. *)

From Stdlib Require Import Ascii.
From stdpp Require Import base option list strings pretty gmap fin_maps.

Open Scope string_scope.
Open Scope list_scope.

(** ** Python values and exceptions *)

(** The few Python value shapes that can appear in a state dictionary or
    in the metadata mapping of a streamed message. *)
Inductive pyval :=
  | VStr (s : string)
  | VInt (z : Z)
  | VBool (b : bool)
  | VNone.

(** [str(v)], which is what an f-string replacement field [{v}] inserts. *)
Definition py_str (v : pyval) : string :=
  match v with
  | VStr s => s
  | VInt z => pretty z
  | VBool true => "True"
  | VBool false => "False"
  | VNone => "None"
  end.

(** [v == s] for a string constant [s]: only a [str] equal to [s] compares
    equal. *)
Definition py_eq_str (v : pyval) (s : string) : bool :=
  match v with
  | VStr t => bool_decide (t = s)
  | _ => false
  end.

(** Truthiness of a [str]: every string but the empty one. *)
Definition str_truthy (s : string) : bool :=
  match s with
  | EmptyString => false
  | String _ _ => true
  end.

(** Truthiness of the result of [Mapping.get]: [None] (key absent) is
    falsy, a [str] is truthy when it is not empty. *)
Definition get_truthy (r : option string) : bool :=
  match r with
  | None => false
  | Some s => str_truthy s
  end.

Inductive exn :=
  | KeyError (key : string)
  | EOFError
  | ValueError (msg : string)
  | APIError.

(** ** The outside world *)

Definition loc := positive.

(** One entry of the list passed to [model.invoke]:
    [{"role": r, "content": c}]. *)
Record ChatMessage := mkChat { role : string; chat_content : string }.

(** What the model returns, and what the stream yields: an object with a
    [content] attribute.  The chat-completion model used here produces
    text content. *)
Record AIMessage := mkAI { content : string }.

Record World := mkWorld {
  environ : gmap string string;        (* os.environ *)
  tty_input : list string;             (* lines still to be typed *)
  tty_prompts : list string;           (* prompts getpass has shown *)
  heap : gmap loc (gmap string pyval); (* dict objects by identity *)
  model_requests : list (list ChatMessage); (* model.invoke calls made *)
  model_replies : list AIMessage;      (* replies the model will give *)
  stdout : list string                 (* one entry per print call *)
}.

Definition set_environ (f : gmap string string → gmap string string)
    (w : World) : World :=
  mkWorld (f (environ w)) (tty_input w) (tty_prompts w) (heap w)
          (model_requests w) (model_replies w) (stdout w).

Definition set_tty_input (f : list string → list string) (w : World) : World :=
  mkWorld (environ w) (f (tty_input w)) (tty_prompts w) (heap w)
          (model_requests w) (model_replies w) (stdout w).

Definition set_tty_prompts (f : list string → list string) (w : World) : World :=
  mkWorld (environ w) (tty_input w) (f (tty_prompts w)) (heap w)
          (model_requests w) (model_replies w) (stdout w).

Definition set_heap
    (f : gmap loc (gmap string pyval) → gmap loc (gmap string pyval))
    (w : World) : World :=
  mkWorld (environ w) (tty_input w) (tty_prompts w) (f (heap w))
          (model_requests w) (model_replies w) (stdout w).

Definition set_model_requests
    (f : list (list ChatMessage) → list (list ChatMessage))
    (w : World) : World :=
  mkWorld (environ w) (tty_input w) (tty_prompts w) (heap w)
          (f (model_requests w)) (model_replies w) (stdout w).

Definition set_model_replies (f : list AIMessage → list AIMessage)
    (w : World) : World :=
  mkWorld (environ w) (tty_input w) (tty_prompts w) (heap w)
          (model_requests w) (f (model_replies w)) (stdout w).

Definition set_stdout (f : list string → list string) (w : World) : World :=
  mkWorld (environ w) (tty_input w) (tty_prompts w) (heap w)
          (model_requests w) (model_replies w) (f (stdout w)).

(** ** Statements as computations

    A statement either finishes with a value or raises; in both cases the
    effects it had on the world so far stay. *)
Definition Py (A : Type) : Type := World → (exn + A) * World.

Definition py_ret {A} (a : A) : Py A := λ w, (inr a, w).

Definition py_raise {A} (e : exn) : Py A := λ w, (inl e, w).

Definition py_bind {A B} (c : Py A) (k : A → Py B) : Py B := λ w,
  match c w with
  | (inl e, w') => (inl e, w')
  | (inr a, w') => k a w'
  end.

Notation "x <- c ;; k" := (py_bind c (λ x, k))
  (at level 100, c at next level, right associativity).
Notation "c ;;; k" := (py_bind c (λ _, k))
  (at level 100, right associativity).

(** ** [os.environ] and [getpass] *)

Fixpoint string_mem (c : ascii) (s : string) : bool :=
  match s with
  | EmptyString => false
  | String d s' => bool_decide (c = d) || string_mem c s'
  end.

Definition NUL : ascii := Ascii.zero.

(** [putenv] refuses an empty name, a name with ['='] in it, and any
    embedded null byte. *)
Definition legal_env_name (k : string) : bool :=
  str_truthy k && negb (string_mem "="%char k) && negb (string_mem NUL k).

Definition legal_env_value (v : string) : bool :=
  negb (string_mem NUL v).

(** [os.environ.get(k)] *)
Definition environ_get (k : string) : Py (option string) := λ w,
  (inr (environ w !! k), w).

(** [os.environ[k] = v] *)
Definition environ_setitem (k v : string) : Py unit := λ w,
  if negb (legal_env_name k) then
    (inl (ValueError "illegal environment variable name"), w)
  else if negb (legal_env_value v) then
    (inl (ValueError "embedded null byte"), w)
  else (inr (), set_environ (insert k v) w).

(** [getpass.getpass(prompt)]: show the prompt, then read one line
    without echo; end of input raises [EOFError]. *)
Definition getpass (prompt : string) : Py string := λ w,
  let w1 := set_tty_prompts (λ ps, ps ++ [prompt]) w in
  match tty_input w1 with
  | [] => (inl EOFError, w1)
  | line :: rest => (inr line, set_tty_input (λ _, rest) w1)
  end.

(** <<
    def _set_env(var: str):
        if not os.environ.get(var):
            os.environ[var] = getpass.getpass(f"{var}: ")
    >> *)
Definition _set_env (var : string) : Py unit :=
  cur <- environ_get var ;;
  if negb (get_truthy cur) then
    value <- getpass (var +:+ ": ") ;;
    environ_setitem var value
  else py_ret ().


(** ** Dictionaries and the chat model *)

(** [d[k]] on a dict object; a missing key raises [KeyError].  Only the
    locations of allocated dictionaries are ever handed around; an
    unallocated one reads as the empty dictionary. *)
Definition dict_getitem (d : loc) (k : string) : Py pyval := λ w,
  match default ∅ (heap w !! d) !! k with
  | Some v => (inr v, w)
  | None => (inl (KeyError k), w)
  end.

(** A dict display [{k: v, ...}]: allocates a new object. *)
Definition dict_new (m : gmap string pyval) : Py loc := λ w,
  let l := fresh (dom (heap w)) in
  (inr l, set_heap (insert l m) w).

(** [m[k]] on a mapping received by value. *)
Definition mapping_getitem (m : gmap string pyval) (k : string) : Py pyval :=
  match m !! k with
  | Some v => py_ret v
  | None => py_raise (KeyError k)
  end.

(** [model.invoke(messages)] on [model = ChatOpenAI(model="gpt-4o-mini")]:
    the request goes out, and either a reply comes back or the call
    raises. *)
Definition model_invoke (messages : list ChatMessage) : Py AIMessage := λ w,
  let w1 := set_model_requests (λ rs, rs ++ [messages]) w in
  match model_replies w1 with
  | [] => (inl APIError, w1)
  | reply :: rest => (inr reply, set_model_replies (λ _, rest) w1)
  end.

(** [print(s, end=e, flush=True)] *)
Definition print (s e : string) : Py unit := λ w,
  (inr (), set_stdout (λ out, out ++ [s +:+ e]) w).

(** ** The example cell *)

Inductive pytype := Tstr | Tint | Tbool | TNoneType.

Definition type_of (v : pyval) : pytype :=
  match v with
  | VStr _ => Tstr
  | VInt _ => Tint
  | VBool _ => Tbool
  | VNone => TNoneType
  end.

(** <<
    class State(TypedDict):
        topic: str
        joke: str
        poem: str
    >>
    The class body is a list of annotations, in declaration order. *)
Definition State : list (string * pytype) :=
  [("topic", Tstr); ("joke", Tstr); ("poem", Tstr)].

(** A dictionary that a static checker would accept as a (total) [State]:
    exactly the declared keys, each holding a value of the declared type. *)
Definition conforms (schema : list (string * pytype))
    (d : gmap string pyval) : Prop :=
  ∀ k, type_of <$> d !! k = (list_to_map schema : gmap string pytype) !! k.

(** <<
    def write_joke(state: State):
        topic = state["topic"]
        joke_response = model.invoke(
            [{"role": "user", "content": f"Write a joke about {topic}"}]
        )
        return {"joke": joke_response.content}
    >> *)
Definition write_joke (state : loc) : Py loc :=
  topic <- dict_getitem state "topic" ;;
  joke_response <-
    model_invoke [mkChat "user" ("Write a joke about " +:+ py_str topic)] ;;
  dict_new {[ "joke" := VStr (content joke_response) ]}.

(** <<
    def write_poem(state: State):
        topic = state["topic"]
        poem_response = model.invoke(
            [{"role": "user", "content": f"Write a short poem about {topic}"}]
        )
        return {"poem": poem_response.content}
    >> *)
Definition write_poem (state : loc) : Py loc :=
  topic <- dict_getitem state "topic" ;;
  poem_response <-
    model_invoke
      [mkChat "user" ("Write a short poem about " +:+ py_str topic)] ;;
  dict_new {[ "poem" := VStr (content poem_response) ]}.

(** A function object: what a [def] statement binds its name to. *)
Record pyfunc := mkFn { __name__ : string; __call__ : loc → Py loc }.

Definition write_joke_def : pyfunc := mkFn "write_joke" write_joke.
Definition write_poem_def : pyfunc := mkFn "write_poem" write_poem.

(** The part of the graph library the notebook calls.  [B] is the builder
    returned by [StateGraph(...)], [G] the compiled graph. *)
Class GraphAPI (B G : Type) := {
  START : string;
  StateGraph : list (string * pytype) → B;
  add_node : pyfunc → B → B;
  add_edge : string → string → B → B;
  compile : B → G
}.

(** One streamed item: the message chunk and its metadata mapping. *)
Definition item : Type := AIMessage * gmap string pyval.

(** [graph.stream(input, stream_mode=mode)]: the items the engine yields.
    Which items, and in which order, is the engine's business. *)
Class StreamAPI (G : Type) := stream : G → gmap string pyval → string → list item.

(** [for x in xs: body(x)] *)
Fixpoint py_for {A} (xs : list A) (body : A → Py unit) : Py unit :=
  match xs with
  | [] => py_ret ()
  | x :: rest => body x ;;; py_for rest body
  end.

(** <<
    if msg.content and metadata["langgraph_node"] == "write_poem":
        print(msg.content, end="|", flush=True)
    >>
    [and] does not evaluate its right operand when the left one is
    falsy. *)
Definition loop_body (it : item) : Py unit :=
  let '(msg, metadata) := it in
  cond <-
    (if str_truthy (content msg) then
       node <- mapping_getitem metadata "langgraph_node" ;;
       py_ret (py_eq_str node "write_poem")
     else py_ret false) ;;
  if cond then print (content msg) "|" else py_ret ().

Section Notebook.
Context {B G : Type} `{GraphAPI B G} `{StreamAPI G}.

(** <<
    graph = (
        StateGraph(State)
        .add_node(write_joke)
        .add_node(write_poem)
        # write both the joke and the poem concurrently
        .add_edge(START, "write_joke")
        .add_edge(START, "write_poem")
        .compile()
    )
    >> *)
Definition graph : G :=
  compile
    (add_edge START "write_poem"
      (add_edge START "write_joke"
        (add_node write_poem_def
          (add_node write_joke_def
            (StateGraph State))))).

(** <<
    for msg, metadata in graph.stream(
        {"topic": "cats"},
        stream_mode="messages",
    ):
        ...
    >> *)
Definition streaming_cell : Py unit :=
  py_for (stream graph {[ "topic" := VStr "cats" ]} "messages") loop_body.
End Notebook.

(** ** A builder that records its calls *)

(** Modelled from the spec: the graph library (builder, engine) is not
    among the sources; the spec describes its surface as "node/edge
    registration, compile".  This instance of the interface keeps what was
    registered, in call order and with duplicates: a node under the name
    of its function object, an edge as the pair of its endpoints. *)
Record Recorded := mkRecorded {
  rec_schema : list (string * pytype);
  rec_nodes : list (string * pyfunc);
  rec_edges : list (string * string);
  rec_compiled : bool
}.

#[export] Instance recorder : GraphAPI Recorded Recorded := {|
  START := "__start__";
  StateGraph schema := mkRecorded schema [] [] false;
  add_node f b :=
    mkRecorded (rec_schema b) (rec_nodes b ++ [(__name__ f, f)])
               (rec_edges b) (rec_compiled b);
  add_edge src dst b :=
    mkRecorded (rec_schema b) (rec_nodes b) (rec_edges b ++ [(src, dst)])
               (rec_compiled b);
  compile b := mkRecorded (rec_schema b) (rec_nodes b) (rec_edges b) true
|}.

(** An engine stand-in for running the streaming cell on chosen items: it
    yields them in ["messages"] mode and nothing in any other mode. *)
Definition replay (items : list item) (G : Type) : StreamAPI G :=
  λ _ _ mode, if bool_decide (mode = "messages") then items else [].

(** Modelled from the spec: the engine's merge of a node's update into the
    state ("a passthrough dictionary merged by the external engine") is
    not among the sources.  A key of the update overwrites, every other
    key passes through. *)
Definition merge_update (state update : gmap string pyval)
    : gmap string pyval :=
  update ∪ state.

(** ** Observations on a run *)

(** The computation finishes without raising. *)
Definition returns {A} (c : Py A) (w : World) : Prop :=
  ∃ a w', c w = (inr a, w').

(** The prompts shown during the run of [c] from [w]. *)
Definition prompted_by {A} (c : Py A) (w : World) : list string :=
  drop (length (tty_prompts w)) (tty_prompts (c w).2).

(** The model requests sent during the run of [c] from [w]. *)
Definition requested_by {A} (c : Py A) (w : World) : list (list ChatMessage) :=
  drop (length (model_requests w)) (model_requests (c w).2).

(** The [print] calls made during the run of [c] from [w]. *)
Definition printed_by {A} (c : Py A) (w : World) : list string :=
  drop (length (stdout w)) (stdout (c w).2).

(** The metadata names node [n] as the producer. *)
Definition from_node (n : string) (it : item) : bool :=
  match it.2 !! "langgraph_node" with
  | Some v => py_eq_str v n
  | None => false
  end.

(** What [print(msg.content, end="|")] writes for an item. *)
Definition chunk (it : item) : string := content it.1 +:+ "|".

(** The filter of the streaming loop: non-empty content, produced by
    [write_poem]. *)
Definition wanted (it : item) : bool :=
  str_truthy (content it.1) && from_node "write_poem" it.

(** The filter on the node name alone. *)
Definition wanted_by_node_only (it : item) : bool :=
  from_node "write_poem" it.

(** The request [write_joke] sends for a topic, and the one of
    [write_poem]. *)
Definition joke_request (topic : pyval) : list ChatMessage :=
  [mkChat "user" ("Write a joke about " +:+ py_str topic)].

Definition poem_request (topic : pyval) : list ChatMessage :=
  [mkChat "user" ("Write a short poem about " +:+ py_str topic)].

(** What the world looks like after a node sent [request], got [reply]
    and returned the update [{field: reply.content}]. *)
Definition after_node (request : list ChatMessage) (field : string)
    (reply : AIMessage) (rest : list AIMessage) (w : World) : World :=
  set_heap (insert (fresh (dom (heap w))) {[ field := VStr (content reply) ]})
    (set_model_replies (λ _, rest)
       (set_model_requests (λ rs, rs ++ [request]) w)).

Ltac run_node :=
  unfold write_joke, write_poem, py_bind, dict_getitem, model_invoke,
    dict_new;
  simpl.

(** ** Sample worlds *)

Definition KEY : string := "OPENAI_API_KEY".

(** A fresh process: nothing in the environment, one line waiting on the
    terminal, one reply waiting at the model. *)
Definition w_unset : World :=
  mkWorld ∅ ["sk-1"] [] ∅ [] [mkAI "Why did the cat sit?"] [].

(** The credential exported as the empty string ([export OPENAI_API_KEY=]). *)
Definition w_empty : World :=
  mkWorld {[ KEY := "" ]} ["sk-1"] [] ∅ [] [] [].

(** The credential already exported. *)
Definition w_set : World :=
  mkWorld {[ KEY := "sk-0" ]} ["sk-1"] [] ∅ [] [] [].

Definition NODE : string := "langgraph_node".

(** A short stream: a poem token, a joke token, an empty poem chunk (the
    model's first and last chunks carry no text), a poem token with
    further metadata. *)
Definition sample_items : list item :=
  [ (mkAI "In", {[ NODE := VStr "write_poem" ]});
    (mkAI "Why", {[ NODE := VStr "write_joke" ]});
    (mkAI "", {[ NODE := VStr "write_poem" ]});
    (mkAI " shadows",
     <[ "langgraph_step" := VInt 1 ]> {[ NODE := VStr "write_poem" ]}) ].

(** A stream of one empty chunk produced by [write_poem]. *)
Definition empty_poem_chunk : list item :=
  [ (mkAI "", {[ NODE := VStr "write_poem" ]}) ].

(** A world with nothing in it. *)
Definition w_blank : World := mkWorld ∅ [] [] ∅ [] [] [].

(** The state the engine hands to the nodes for the input
    [{"topic": "cats"}], with one model reply pending. *)
Definition w_cats : World :=
  mkWorld ∅ [] [] {[ 1%positive := {[ "topic" := VStr "cats" ]} ]} []
          [mkAI "Why did the cat sit?"] [].

(** A state no type checker would accept as a [State]: a number for the
    topic, an undeclared key, and neither ["joke"] nor ["poem"]. *)
Definition odd_state : gmap string pyval :=
  <[ "mood" := VNone ]> {[ "topic" := VInt 7 ]}.

Definition w_odd : World :=
  mkWorld ∅ [] [] {[ 1%positive := odd_state ]} []
          [mkAI "Seven ate nine."] [].

(** ** Further observations and sample worlds *)




(** The user answers the first prompt with a bare return. *)
Definition w_enter : World := mkWorld ∅ [""; "sk-1"] [] ∅ [] [] [].


(** A stream whose third item has text but no producer in its metadata;
    its second item has neither. *)
Definition broken_items : list item :=
  [ (mkAI "In", {[ NODE := VStr "write_poem" ]});
    (mkAI "", ∅);
    (mkAI " shadows", ∅);
    (mkAI ",", {[ NODE := VStr "write_poem" ]}) ].

(** The state for [{"topic": "cats"}] with two model replies pending. *)
Definition w_two_replies : World :=
  mkWorld ∅ [] [] {[ 1%positive := {[ "topic" := VStr "cats" ]} ]} []
          [mkAI "first"; mkAI "second"] [].

(** A state dictionary without ["topic"]. *)
Definition w_no_topic : World :=
  mkWorld ∅ [] [] {[ 1%positive := {[ "joke" := VStr "old" ]} ]} []
          [mkAI "unused"] [].

(** ** Laws of the world and the monad *)

Lemma drop_own_length {A} (l k : list A) : drop (length l) (l ++ k) = k.
Proof. by rewrite drop_app_length. Qed.

Lemma drop_all_own {A} (l : list A) : drop (length l) l = [].
Proof. by rewrite drop_all. Qed.

Lemma set_stdout_nil w : set_stdout (λ out, out ++ []) w = w.
Proof. destruct w; unfold set_stdout; simpl. by rewrite app_nil_r. Qed.

Lemma set_stdout_app l k w :
  set_stdout (λ out, out ++ k) (set_stdout (λ out, out ++ l) w)
  = set_stdout (λ out, out ++ (l ++ k)) w.
Proof. destruct w; unfold set_stdout; simpl. by rewrite app_assoc. Qed.

Lemma py_bind_inr {A B} (c : Py A) (k : A → Py B) w a w' :
  c w = (inr a, w') → py_bind c k w = k a w'.
Proof. intros E. unfold py_bind. by rewrite E. Qed.


(** ** [_set_env] *)

Lemma set_env_truthy var w :
  get_truthy (environ w !! var) = true → _set_env var w = (inr (), w).
Proof.
  intros T. unfold _set_env, py_bind, environ_get. by rewrite T.
Qed.

Lemma set_env_eof var w :
  get_truthy (environ w !! var) = false → tty_input w = [] →
  _set_env var w
  = (inl EOFError, set_tty_prompts (λ ps, ps ++ [var +:+ ": "]) w).
Proof.
  intros F E. unfold _set_env, py_bind, environ_get. rewrite F. simpl.
  unfold getpass. simpl. by rewrite E.
Qed.

Lemma set_env_stores var w value rest :
  get_truthy (environ w !! var) = false → tty_input w = value :: rest →
  legal_env_name var = true → legal_env_value value = true →
  _set_env var w
  = (inr (),
     set_environ (insert var value)
       (set_tty_input (λ _, rest)
          (set_tty_prompts (λ ps, ps ++ [var +:+ ": "]) w))).
Proof.
  intros F E Ln Lv. unfold _set_env, py_bind, environ_get. rewrite F. simpl.
  unfold getpass. simpl. rewrite E.
  unfold environ_setitem. by rewrite Ln, Lv.
Qed.

(** Whatever happens, the prompt is shown exactly when the current value
    is falsy, and then exactly once. *)
Lemma set_env_prompted var w :
  prompted_by (_set_env var) w
  = if get_truthy (environ w !! var) then [] else [var +:+ ": "].
Proof.
  unfold prompted_by.
  destruct (get_truthy (environ w !! var)) eqn:T.
  - rewrite set_env_truthy by done. apply drop_all_own.
  - unfold _set_env, py_bind, environ_get. rewrite T. simpl.
    unfold getpass. simpl.
    destruct (tty_input w) as [|value rest]; simpl.
    + apply drop_own_length.
    + unfold environ_setitem.
      destruct (legal_env_name var), (legal_env_value value); simpl;
        apply drop_own_length.
Qed.

(** No run of [_set_env var] touches another variable. *)
Lemma set_env_frame var w k :
  k ≠ var → environ (_set_env var w).2 !! k = environ w !! k.
Proof.
  intros Hk. unfold _set_env, py_bind, environ_get.
  destruct (get_truthy (environ w !! var)); simpl; [done|].
  unfold getpass. simpl.
  destruct (tty_input w) as [|value rest]; simpl; [done|].
  unfold environ_setitem.
  destruct (legal_env_name var), (legal_env_value value); simpl; try done.
  by rewrite lookup_insert_ne.
Qed.

(** A normal return leaves the variable set. *)
Lemma set_env_post var w w' :
  _set_env var w = (inr (), w') → is_Some (environ w' !! var).
Proof.
  unfold _set_env, py_bind, environ_get.
  destruct (get_truthy (environ w !! var)) eqn:T; simpl.
  - intros [= <-]. destruct (environ w !! var); [by eexists|done].
  - unfold getpass. simpl.
    destruct (tty_input w) as [|value rest]; simpl; [done|].
    unfold environ_setitem.
    destruct (legal_env_name var), (legal_env_value value); simpl; try done.
    intros [= <-]. simpl. rewrite lookup_insert_eq. by eexists.
Qed.

Lemma get_truthy_false r :
  get_truthy r = false ↔ r = None ∨ r = Some "".
Proof.
  destruct r as [[|c s]|]; simpl.
  - split; [by right|done].
  - split; [done|]. intros [?|?]; discriminate.
  - split; [by left|done].
Qed.

Lemma get_truthy_true r :
  get_truthy r = true ↔ ∃ v, r = Some v ∧ v ≠ "".
Proof.
  destruct r as [[|c s]|]; simpl.
  - split; [done|]. intros (v & [= <-] & Hv). by destruct Hv.
  - split; [|done]. intros _. by eexists.
  - split; [done|]. intros (v & ? & _). discriminate.
Qed.

(** When does [_set_env var] return?  When the variable holds a non-empty
    value, or when a line can be read and [putenv] accepts name and line. *)
Lemma set_env_returns var w :
  returns (_set_env var) w
  ↔ get_truthy (environ w !! var) = true
    ∨ (legal_env_name var = true
       ∧ ∃ value rest, tty_input w = value :: rest
                       ∧ legal_env_value value = true).
Proof.
  unfold returns. split.
  - intros (a & w' & E).
    destruct (get_truthy (environ w !! var)) eqn:T; [by left|right].
    revert E. unfold _set_env, py_bind, environ_get. rewrite T. simpl.
    unfold getpass. simpl.
    destruct (tty_input w) as [|value rest]; simpl; [done|].
    unfold environ_setitem.
    destruct (legal_env_name var) eqn:Ln, (legal_env_value value) eqn:Lv;
      simpl; try done.
    intros _. split; [done|]. by exists value, rest.
  - intros [T|(Ln & value & rest & E & Lv)].
    + exists (), w. by apply set_env_truthy.
    + destruct (get_truthy (environ w !! var)) eqn:T.
      * exists (), w. by apply set_env_truthy.
      * eexists (), _. by eapply set_env_stores.
Qed.

(** C2 (as amended): [_set_env(var)] prompts if and only if the variable is
    unset or set to the empty string; when it prompts, a line is read and
    [putenv] accepts name and line, the line is stored in the environment
    under [var]; when the variable holds a non-empty value, [_set_env]
    reads it without prompting and returns with the world unchanged. *)
Theorem set_env_prompts_iff_unset_or_empty var w :
  (prompted_by (_set_env var) w ≠ []
   ↔ environ w !! var = None ∨ environ w !! var = Some "")
  ∧ (∀ value rest,
        environ w !! var = None ∨ environ w !! var = Some "" →
        tty_input w = value :: rest →
        legal_env_name var = true → legal_env_value value = true →
        ∃ w', _set_env var w = (inr (), w')
              ∧ environ w' = <[var := value]> (environ w))
  ∧ (∀ v, environ w !! var = Some v → v ≠ "" →
        prompted_by (_set_env var) w = [] ∧ _set_env var w = (inr (), w)).
Proof.
  split; [|split].
  - rewrite set_env_prompted, <- get_truthy_false.
    destruct (get_truthy (environ w !! var)); split; done.
  - intros value rest F E Ln Lv. apply get_truthy_false in F.
    eexists. split; [by eapply set_env_stores|done].
  - intros v E Hv.
    assert (get_truthy (environ w !! var) = true) as T
      by (apply get_truthy_true; eauto).
    split; [by rewrite set_env_prompted, T | by apply set_env_truthy].
Qed.

Lemma set_env_prompts_iff_unset_or_empty_witness :
  (environ w_unset !! KEY = None
   ∧ ∃ w', _set_env KEY w_unset = (inr (), w')
           ∧ environ w' = <[KEY := "sk-1"]> (environ w_unset))
  ∧ (environ w_set !! KEY = Some "sk-0"
     ∧ prompted_by (_set_env KEY) w_set = []
     ∧ _set_env KEY w_set = (inr (), w_set)).
Proof.
  split; split; try reflexivity.
  - apply (proj1 (proj2 (set_env_prompts_iff_unset_or_empty KEY w_unset))
             "sk-1" []); [left| | |]; reflexivity.
  - apply (proj2 (proj2 (set_env_prompts_iff_unset_or_empty KEY w_set))
             "sk-0"); [reflexivity | discriminate].
Defined.

(** C2 (as stated) fails: with the variable set to the empty string the
    variable is set, and yet [_set_env] prompts and changes the
    environment. *)
Lemma set_env_prompts_although_set :
  ¬ (∀ var w,
        (prompted_by (_set_env var) w ≠ [] ↔ environ w !! var = None)
        ∧ (is_Some (environ w !! var) →
           environ (_set_env var w).2 = environ w)).
Proof.
  intros stated. destruct (stated KEY w_empty) as [[to_unset _] unchanged].
  assert (prompted_by (_set_env KEY) w_empty = [KEY +:+ ": "]) as P
    by reflexivity.
  assert (environ w_empty !! KEY = Some "") as S by reflexivity.
  rewrite P, S in to_unset. by specialize (to_unset ltac:(done)).
Qed.

(** C8: [_set_env(var)] prompts when the variable is absent and also when
    it is set to the empty string; in the latter case the prompted value
    replaces the empty one. *)
Theorem set_env_prompts_on_empty_value var w :
  (environ w !! var = None →
   prompted_by (_set_env var) w = [var +:+ ": "])
  ∧ (environ w !! var = Some "" →
     prompted_by (_set_env var) w = [var +:+ ": "]
     ∧ ∀ value rest,
         tty_input w = value :: rest →
         legal_env_name var = true → legal_env_value value = true →
         ∃ w', _set_env var w = (inr (), w')
               ∧ environ w' !! var = Some value).
Proof.
  split.
  - intros E. by rewrite set_env_prompted, E.
  - intros E. split; [by rewrite set_env_prompted, E|].
    intros value rest I Ln Lv. eexists. split.
    + eapply set_env_stores; [by rewrite E|done..].
    + simpl. apply lookup_insert_eq.
Qed.

Lemma set_env_prompts_on_empty_value_witness :
  environ w_empty !! KEY = Some ""
  ∧ prompted_by (_set_env KEY) w_empty = ["OPENAI_API_KEY: "]
  ∧ ∃ w', _set_env KEY w_empty = (inr (), w')
          ∧ environ w' !! KEY = Some "sk-1".
Proof.
  split; [reflexivity|].
  destruct (proj2 (set_env_prompts_on_empty_value KEY w_empty) eq_refl)
    as [P S].
  split; [exact P|].
  apply (S "sk-1" []); reflexivity.
Defined.

(** C10: after [_set_env(var)] returns, [var] is set, whether or not it
    was set before; and no run of [_set_env(var)] modifies a variable
    other than [var].  The call does return when the variable already
    holds a non-empty value, and otherwise when a line can be read and
    stored. *)
Theorem set_env_leaves_var_set var w :
  (∀ w', _set_env var w = (inr (), w') → is_Some (environ w' !! var))
  ∧ (∀ k, k ≠ var → environ (_set_env var w).2 !! k = environ w !! k)
  ∧ (returns (_set_env var) w
     ↔ get_truthy (environ w !! var) = true
       ∨ (legal_env_name var = true
          ∧ ∃ value rest, tty_input w = value :: rest
                          ∧ legal_env_value value = true)).
Proof.
  split; [|split].
  - intros w'. apply set_env_post.
  - intros k. apply set_env_frame.
  - apply set_env_returns.
Qed.

Lemma set_env_leaves_var_set_witness :
  returns (_set_env KEY) w_unset
  ∧ is_Some (environ (_set_env KEY w_unset).2 !! KEY)
  ∧ environ (_set_env KEY w_unset).2 !! "HOME" = environ w_unset !! "HOME".
Proof.
  destruct (set_env_leaves_var_set KEY w_unset) as (post & frame & ret).
  split; [|split].
  - apply ret. right. split; [reflexivity|].
    exists "sk-1", []. split; reflexivity.
  - apply post. reflexivity.
  - apply frame. discriminate.
Defined.

(** ** The streaming loop *)

Lemma wanted_iff it :
  wanted it = true
  ↔ content it.1 ≠ "" ∧ it.2 !! "langgraph_node" = Some (VStr "write_poem").
Proof.
  unfold wanted, from_node. destruct it as [[c] md]; simpl.
  rewrite andb_true_iff. split.
  - intros [Hc Hn]. split; [by destruct c|].
    destruct (md !! "langgraph_node") as [[t| | |]|]; simpl in Hn; try done.
    apply bool_decide_eq_true in Hn. by subst.
  - intros [Hc ->]. split; [by destruct c|]. reflexivity.
Qed.

(** One iteration whose indexing does not raise. *)
Lemma loop_body_ok it w :
  (str_truthy (content it.1) = true → is_Some (it.2 !! "langgraph_node")) →
  loop_body it w
  = (inr (),
     set_stdout (λ out, out ++ (if wanted it then [chunk it] else [])) w).
Proof.
  destruct it as [msg md]. unfold loop_body, wanted, from_node, chunk. simpl.
  intros K. unfold py_bind, mapping_getitem.
  destruct (str_truthy (content msg)) eqn:T; simpl.
  - destruct (K eq_refl) as [v ->]. simpl.
    destruct (py_eq_str v "write_poem"); simpl; [done|].
    by rewrite set_stdout_nil.
  - by rewrite set_stdout_nil.
Qed.


(** The whole loop, when no indexing raises. *)
Lemma py_for_loop_body_ok items w :
  Forall (λ it, str_truthy (content it.1) = true →
                is_Some (it.2 !! "langgraph_node")) items →
  py_for items loop_body w
  = (inr (), set_stdout (λ out, out ++ map chunk (List.filter wanted items)) w).
Proof.
  intros F. revert w. induction F as [|it items K F IH]; intros w; simpl.
  - by rewrite set_stdout_nil.
  - erewrite py_bind_inr by (by apply loop_body_ok).
    rewrite IH. destruct (wanted it); simpl.
    + by rewrite set_stdout_app.
    + by rewrite set_stdout_nil.
Qed.

(** Chunks without text are as good as absent from the stream. *)
Lemma py_for_skips_empty items w :
  py_for items loop_body w
  = py_for (List.filter (λ it, str_truthy (content it.1)) items) loop_body w.
Proof.
  revert w. induction items as [|it items IH]; intros w; simpl; [done|].
  destruct (str_truthy (content it.1)) eqn:T; simpl.
  - unfold py_bind. destruct (loop_body it w) as [[e|[]] w']; [done|apply IH].
  - erewrite py_bind_inr; [apply IH|].
    rewrite loop_body_ok by (by rewrite T).
    unfold wanted. rewrite T. simpl. by rewrite set_stdout_nil.
Qed.

Lemma stdout_set_stdout_drop l w :
  drop (length (stdout w)) (stdout (set_stdout (λ out, out ++ l) w)) = l.
Proof. simpl. apply drop_own_length. Qed.

(** C1 (as amended): the streaming loop iterates
    [graph.stream({"topic": "cats"}, stream_mode="messages")] and prints a
    streamed message's content (followed by ["|"]) exactly when that
    content is not empty and the metadata field ["langgraph_node"] equals
    ["write_poem"]; messages whose metadata names any other node are never
    printed. *)
Theorem streaming_cell_prints_wanted
    {B G : Type} (api : GraphAPI B G) (engine : StreamAPI G) (w : World) :
  let items := stream graph {[ "topic" := VStr "cats" ]} "messages" in
  Forall (λ it, str_truthy (content it.1) = true →
                is_Some (it.2 !! "langgraph_node")) items →
  streaming_cell w
  = (inr (), set_stdout (λ out, out ++ map chunk (List.filter wanted items)) w)
  ∧ printed_by streaming_cell w = map chunk (List.filter wanted items)
  ∧ (∀ it, wanted it = true
           ↔ content it.1 ≠ ""
             ∧ it.2 !! "langgraph_node" = Some (VStr "write_poem")).
Proof.
  intros items F.
  assert (streaming_cell w
          = (inr (),
             set_stdout (λ out, out ++ map chunk (List.filter wanted items)) w))
    as E by (by apply py_for_loop_body_ok).
  split; [done|split].
  - unfold printed_by. rewrite E. apply stdout_set_stdout_drop.
  - apply wanted_iff.
Qed.

Lemma streaming_cell_prints_wanted_witness :
  printed_by
    (streaming_cell (H := recorder) (H0 := replay sample_items Recorded))
    w_blank
  = ["In|"; " shadows|"].
Proof.
  apply (streaming_cell_prints_wanted recorder (replay sample_items Recorded)
           w_blank).
  vm_compute. repeat constructor; intros _; by eexists.
Defined.

(** C1 (as stated) fails: a chunk with empty content whose metadata names
    [write_poem] is not printed. *)
Lemma streaming_cell_skips_matching_node :
  ¬ (∀ (B G : Type) (api : GraphAPI B G) (engine : StreamAPI G) (w : World),
       let items := stream graph {[ "topic" := VStr "cats" ]} "messages" in
       Forall (λ it, is_Some (it.2 !! "langgraph_node")) items →
       printed_by streaming_cell w
       = map chunk (List.filter wanted_by_node_only items)).
Proof.
  intros stated.
  specialize (stated Recorded Recorded recorder
                (replay empty_poem_chunk Recorded) w_blank).
  assert (printed_by
            (streaming_cell (H := recorder)
               (H0 := replay empty_poem_chunk Recorded)) w_blank = []) as P
    by reflexivity.
  rewrite P in stated. simpl in stated.
  assert ([] = ["|"]) as Absurd; [|discriminate].
  apply stated. repeat constructor. by eexists.
Qed.

(** C7: if every streamed metadata mapping contains the key
    ["langgraph_node"], no indexing [metadata["langgraph_node"]] in the
    streaming loop raises, and the loop runs to its end. *)
Theorem streaming_cell_never_KeyError
    {B G : Type} (api : GraphAPI B G) (engine : StreamAPI G) (w : World) :
  Forall (λ it : item, is_Some (it.2 !! "langgraph_node"))
         (stream graph {[ "topic" := VStr "cats" ]} "messages") →
  returns streaming_cell w
  ∧ ∀ k, (streaming_cell w).1 ≠ inl (KeyError k).
Proof.
  intros F.
  assert (∃ w', streaming_cell w = (inr (), w')) as [w' E].
  { eexists. apply py_for_loop_body_ok.
    eapply Forall_impl; [exact F|]. by intros it K _. }
  split; [by exists (), w'|]. intros k. by rewrite E.
Qed.

Lemma streaming_cell_never_KeyError_witness :
  returns
    (streaming_cell (H := recorder) (H0 := replay sample_items Recorded))
    w_blank.
Proof.
  apply (streaming_cell_never_KeyError recorder
           (replay sample_items Recorded) w_blank).
  vm_compute. repeat constructor; by eexists.
Defined.

(** C9: the print condition also requires [msg.content] to be truthy: for
    a streamed message produced by [write_poem] whose content is empty the
    iteration prints nothing and changes nothing; over a whole stream, the
    chunks with empty content could as well be absent. *)
Theorem loop_body_skips_empty_content
    (msg : AIMessage) (metadata : gmap string pyval) (w : World) :
  content msg = "" →
  metadata !! "langgraph_node" = Some (VStr "write_poem") →
  loop_body (msg, metadata) w = (inr (), w)
  ∧ printed_by (loop_body (msg, metadata)) w = []
  ∧ ∀ before after,
      py_for (before ++ (msg, metadata) :: after) loop_body w
      = py_for (before ++ after) loop_body w.
Proof.
  intros C K.
  assert (loop_body (msg, metadata) w = (inr (), w)) as E.
  { rewrite loop_body_ok by (simpl; by rewrite C).
    unfold wanted. simpl. rewrite C. simpl. by rewrite set_stdout_nil. }
  split; [done|split].
  - unfold printed_by. rewrite E. apply drop_all_own.
  - intros before after.
    rewrite (py_for_skips_empty (before ++ (msg, metadata) :: after)).
    rewrite (py_for_skips_empty (before ++ after)).
    rewrite !List.filter_app. simpl. by rewrite C.
Qed.

Lemma loop_body_skips_empty_content_witness :
  loop_body (mkAI "", {[ NODE := VStr "write_poem" ]}) w_blank
  = (inr (), w_blank).
Proof.
  apply (loop_body_skips_empty_content
           (mkAI "") {[ NODE := VStr "write_poem" ]} w_blank);
    reflexivity.
Defined.

(** ** The node functions *)

Lemma write_joke_no_topic st w :
  default ∅ (heap w !! st) !! "topic" = None →
  write_joke st w = (inl (KeyError "topic"), w).
Proof. intros K. run_node. by rewrite K. Qed.

Lemma write_poem_no_topic st w :
  default ∅ (heap w !! st) !! "topic" = None →
  write_poem st w = (inl (KeyError "topic"), w).
Proof. intros K. run_node. by rewrite K. Qed.

Lemma write_joke_no_reply st w t :
  default ∅ (heap w !! st) !! "topic" = Some t → model_replies w = [] →
  write_joke st w
  = (inl APIError, set_model_requests (λ rs, rs ++ [joke_request t]) w).
Proof. intros K R. run_node. by rewrite K, R. Qed.

Lemma write_poem_no_reply st w t :
  default ∅ (heap w !! st) !! "topic" = Some t → model_replies w = [] →
  write_poem st w
  = (inl APIError, set_model_requests (λ rs, rs ++ [poem_request t]) w).
Proof. intros K R. run_node. by rewrite K, R. Qed.

Lemma write_joke_reply st w t reply rest :
  default ∅ (heap w !! st) !! "topic" = Some t →
  model_replies w = reply :: rest →
  write_joke st w
  = (inr (fresh (dom (heap w))),
     after_node (joke_request t) "joke" reply rest w).
Proof. intros K R. run_node. by rewrite K, R. Qed.

Lemma write_poem_reply st w t reply rest :
  default ∅ (heap w !! st) !! "topic" = Some t →
  model_replies w = reply :: rest →
  write_poem st w
  = (inr (fresh (dom (heap w))),
     after_node (poem_request t) "poem" reply rest w).
Proof. intros K R. run_node. by rewrite K, R. Qed.

Lemma fresh_unallocated (h : gmap loc (gmap string pyval)) :
  h !! fresh (dom h) = None.
Proof. apply not_elem_of_dom, is_fresh. Qed.

Lemma heap_after_node request field reply rest w l :
  is_Some (heap w !! l) →
  heap (after_node request field reply rest w) !! l = heap w !! l.
Proof.
  intros A. simpl. apply lookup_insert_ne. intros <-.
  rewrite fresh_unallocated in A. by destruct A.
Qed.

Lemma requests_after_node request field reply rest w :
  drop (length (model_requests w))
       (model_requests (after_node request field reply rest w))
  = [request].
Proof. simpl. apply drop_own_length. Qed.

(** C3: for an input state that has the key ["topic"], a call of
    [write_joke] (of [write_poem]) sends exactly one request to the model,
    whatever the outcome; when the model replies, the call returns a new
    dictionary holding the single field ["joke"] (["poem"]) with the
    content of that reply; when the model raises, so does the call:
    nothing is tried again. *)
Theorem node_functions_invoke_once
    (st : loc) (w : World) (d : gmap string pyval) (t : pyval) :
  heap w !! st = Some d → d !! "topic" = Some t →
  (requested_by (write_joke st) w = [joke_request t]
   ∧ (∀ reply rest, model_replies w = reply :: rest →
        ∃ upd w', write_joke st w = (inr upd, w')
                  ∧ heap w' !! upd = Some {[ "joke" := VStr (content reply) ]})
   ∧ (model_replies w = [] → (write_joke st w).1 = inl APIError))
  ∧ (requested_by (write_poem st) w = [poem_request t]
     ∧ (∀ reply rest, model_replies w = reply :: rest →
          ∃ upd w', write_poem st w = (inr upd, w')
                    ∧ heap w' !! upd = Some {[ "poem" := VStr (content reply) ]})
     ∧ (model_replies w = [] → (write_poem st w).1 = inl APIError)).
Proof.
  intros A T.
  assert (default ∅ (heap w !! st) !! "topic" = Some t) as K by (by rewrite A).
  split; (split; [|split]).
  - unfold requested_by. destruct (model_replies w) as [|reply rest] eqn:R.
    + rewrite (write_joke_no_reply st w t) by done. simpl.
      apply drop_own_length.
    + rewrite (write_joke_reply st w t reply rest) by done.
      apply requests_after_node.
  - intros reply rest R. eexists _, _. split; [by apply write_joke_reply|].
    simpl. apply lookup_insert_eq.
  - intros R. by rewrite (write_joke_no_reply st w t).
  - unfold requested_by. destruct (model_replies w) as [|reply rest] eqn:R.
    + rewrite (write_poem_no_reply st w t) by done. simpl.
      apply drop_own_length.
    + rewrite (write_poem_reply st w t reply rest) by done.
      apply requests_after_node.
  - intros reply rest R. eexists _, _. split; [by apply write_poem_reply|].
    simpl. apply lookup_insert_eq.
  - intros R. by rewrite (write_poem_no_reply st w t).
Qed.

Lemma node_functions_invoke_once_witness :
  requested_by (write_joke 1%positive) w_cats
  = [[mkChat "user" "Write a joke about cats"]]
  ∧ ∃ upd w', write_poem 1%positive w_cats = (inr upd, w')
              ∧ heap w' !! upd
                = Some {[ "poem" := VStr "Why did the cat sit?" ]}.
Proof.
  destruct (node_functions_invoke_once 1%positive w_cats
              {[ "topic" := VStr "cats" ]} (VStr "cats") eq_refl eq_refl)
    as [[J _] [_ [P _]]].
  split; [exact J|]. apply (P (mkAI "Why did the cat sit?") []). reflexivity.
Defined.

(** A node run leaves every dictionary that existed before as it was. *)
Lemma write_joke_heap st w l :
  is_Some (heap w !! l) → heap (write_joke st w).2 !! l = heap w !! l.
Proof.
  intros A. destruct (default ∅ (heap w !! st) !! "topic") as [t|] eqn:K.
  - destruct (model_replies w) as [|reply rest] eqn:R.
    + by rewrite (write_joke_no_reply st w t).
    + rewrite (write_joke_reply st w t reply rest) by done.
      by apply heap_after_node.
  - by rewrite write_joke_no_topic.
Qed.

Lemma write_poem_heap st w l :
  is_Some (heap w !! l) → heap (write_poem st w).2 !! l = heap w !! l.
Proof.
  intros A. destruct (default ∅ (heap w !! st) !! "topic") as [t|] eqn:K.
  - destruct (model_replies w) as [|reply rest] eqn:R.
    + by rewrite (write_poem_no_reply st w t).
    + rewrite (write_poem_reply st w t reply rest) by done.
      by apply heap_after_node.
  - by rewrite write_poem_no_topic.
Qed.

(** What a node returns is a dictionary that did not exist before, with
    one key. *)
Lemma write_joke_update st w upd w' :
  write_joke st w = (inr upd, w') →
  heap w !! upd = None ∧ is_Some (heap w !! st)
  ∧ ∃ c, heap w' !! upd = Some {[ "joke" := VStr c ]}.
Proof.
  destruct (default ∅ (heap w !! st) !! "topic") as [t|] eqn:K.
  - destruct (model_replies w) as [|reply rest] eqn:R.
    + by rewrite (write_joke_no_reply st w t).
    + rewrite (write_joke_reply st w t reply rest) by done.
      intros [= <- <-]. split; [apply fresh_unallocated|split].
      * destruct (heap w !! st); [by eexists|done].
      * exists (content reply). simpl. apply lookup_insert_eq.
  - by rewrite write_joke_no_topic.
Qed.

Lemma write_poem_update st w upd w' :
  write_poem st w = (inr upd, w') →
  heap w !! upd = None ∧ is_Some (heap w !! st)
  ∧ ∃ c, heap w' !! upd = Some {[ "poem" := VStr c ]}.
Proof.
  destruct (default ∅ (heap w !! st) !! "topic") as [t|] eqn:K.
  - destruct (model_replies w) as [|reply rest] eqn:R.
    + by rewrite (write_poem_no_reply st w t).
    + rewrite (write_poem_reply st w t reply rest) by done.
      intros [= <- <-]. split; [apply fresh_unallocated|split].
      * destruct (heap w !! st); [by eexists|done].
      * exists (content reply). simpl. apply lookup_insert_eq.
  - by rewrite write_poem_no_topic.
Qed.

(** Merging a one-key update leaves every other key of the state alone. *)
Lemma merge_update_singleton state field v k :
  k ≠ field → merge_update state {[ field := v ]} !! k = state !! k.
Proof.
  intros N. unfold merge_update. apply lookup_union_r.
  by apply lookup_singleton_ne.
Qed.

(** C5: the update returned by [write_joke] has the key ["joke"] and no
    other, so merging it leaves ["topic"] and ["poem"] as they were; the
    update returned by [write_poem] has the key ["poem"] and no other, so
    merging it leaves ["topic"] and ["joke"] as they were; the update is a
    new dictionary, and neither function changes its input state or any
    other dictionary that existed before the call. *)
Theorem node_updates_touch_one_field (st : loc) (w : World) :
  ((∀ l, is_Some (heap w !! l) → heap (write_joke st w).2 !! l = heap w !! l)
   ∧ heap (write_joke st w).2 !! st = heap w !! st
   ∧ ∀ upd w', write_joke st w = (inr upd, w') →
       upd ≠ st
       ∧ ∃ u, heap w' !! upd = Some u ∧ dom u = {[ "joke" ]}
              ∧ ∀ state, merge_update state u !! "topic" = state !! "topic"
                         ∧ merge_update state u !! "poem" = state !! "poem")
  ∧ ((∀ l, is_Some (heap w !! l) → heap (write_poem st w).2 !! l = heap w !! l)
     ∧ heap (write_poem st w).2 !! st = heap w !! st
     ∧ ∀ upd w', write_poem st w = (inr upd, w') →
         upd ≠ st
         ∧ ∃ u, heap w' !! upd = Some u ∧ dom u = {[ "poem" ]}
                ∧ ∀ state, merge_update state u !! "topic" = state !! "topic"
                           ∧ merge_update state u !! "joke" = state !! "joke").
Proof.
  split; (split; [|split]).
  - intros l. apply write_joke_heap.
  - destruct (heap w !! st) as [d|] eqn:A.
    + rewrite <- A. apply write_joke_heap. rewrite A. by eexists.
    + rewrite write_joke_no_topic; [done|by rewrite A].
  - intros upd w' E. apply write_joke_update in E as (F & A & c & U).
    split; [intros ->; rewrite F in A; by destruct A|].
    eexists. split; [exact U|split; [apply dom_singleton_L|]].
    intros state. split; by apply merge_update_singleton.
  - intros l. apply write_poem_heap.
  - destruct (heap w !! st) as [d|] eqn:A.
    + rewrite <- A. apply write_poem_heap. rewrite A. by eexists.
    + rewrite write_poem_no_topic; [done|by rewrite A].
  - intros upd w' E. apply write_poem_update in E as (F & A & c & U).
    split; [intros ->; rewrite F in A; by destruct A|].
    eexists. split; [exact U|split; [apply dom_singleton_L|]].
    intros state. split; by apply merge_update_singleton.
Qed.

Lemma node_updates_touch_one_field_witness :
  is_Some (heap w_cats !! 1%positive)
  ∧ heap (write_joke 1%positive w_cats).2 !! 1%positive
    = heap w_cats !! 1%positive
  ∧ ∃ upd w', write_joke 1%positive w_cats = (inr upd, w')
              ∧ upd ≠ 1%positive.
Proof.
  destruct (node_updates_touch_one_field 1%positive w_cats)
    as [(kept & _ & new) _].
  assert (is_Some (heap w_cats !! 1%positive)) as A by (by eexists).
  split; [exact A|split; [exact (kept _ A)|]].
  eexists _, _. split; [reflexivity|].
  by eapply new.
Defined.

(** ** The state schema and the graph *)

Lemma odd_state_not_a_State : ¬ conforms State odd_state.
Proof. intros C. specialize (C "topic"). vm_compute in C. discriminate. Qed.

(** C6: [State] declares exactly three fields, named [topic], [joke] and
    [poem], all of type [str]; and nothing in the code holds state values
    to that declaration: the node functions run to their end on every
    state dictionary that has a ["topic"] key, among them dictionaries
    that do not conform to [State]. *)
Theorem State_three_str_fields_unenforced :
  State.*1 = ["topic"; "joke"; "poem"]
  ∧ Forall (λ field, field.2 = Tstr) State
  ∧ (∀ st w d,
        heap w !! st = Some d → is_Some (d !! "topic") →
        model_replies w ≠ [] →
        returns (write_joke st) w ∧ returns (write_poem st) w)
  ∧ ∃ d, ¬ conforms State d ∧ is_Some (d !! "topic").
Proof.
  split; [done|split; [by repeat constructor|split]].
  - intros st w d A [t T] R.
    assert (default ∅ (heap w !! st) !! "topic" = Some t) as K
      by (by rewrite A).
    destruct (model_replies w) as [|reply rest] eqn:E; [done|].
    split; eexists _, _.
    + by apply write_joke_reply.
    + by apply write_poem_reply.
  - exists odd_state. split; [apply odd_state_not_a_State|by eexists].
Qed.

Lemma State_three_str_fields_unenforced_witness :
  ¬ conforms State odd_state
  ∧ returns (write_joke 1%positive) w_odd
  ∧ returns (write_poem 1%positive) w_odd.
Proof.
  split; [apply odd_state_not_a_State|].
  apply (proj1 (proj2 (proj2 State_three_str_fields_unenforced))
           1%positive w_odd odd_state).
  - reflexivity.
  - by eexists.
  - discriminate.
Defined.

(** C4: the graph construction registers exactly two nodes,
    ["write_joke"] and ["write_poem"], and declares exactly two edges,
    both from [START], one to ["write_joke"] and one to ["write_poem"];
    nothing else is declared before [compile]. *)
Theorem graph_two_nodes_two_edges :
  let g := graph (H := recorder) in
  rec_schema g = State
  ∧ rec_nodes g
    = [("write_joke", write_joke_def); ("write_poem", write_poem_def)]
  ∧ rec_edges g = [(START, "write_joke"); (START, "write_poem")]
  ∧ length (rec_nodes g) = 2 ∧ length (rec_edges g) = 2
  ∧ Forall (λ e, e.1 = START) (rec_edges g)
  ∧ rec_compiled g = true.
Proof.
  simpl. repeat split. by repeat constructor.
Qed.

(** ** Further properties of [_set_env] *)



Lemma app_singleton_neq {A} (l : list A) (x : A) : l ++ [x] ≠ l.
Proof.
  intros E. apply (f_equal length) in E. rewrite length_app in E.
  simpl in E. lia.
Qed.

(** X2: once [_set_env(var)] has returned, calling it again changes
    nothing and asks nothing, unless the value now stored is the empty
    string: then, and only then, the second call prompts again. *)
Theorem set_env_twice var w w' :
  _set_env var w = (inr (), w') →
  (_set_env var w' = (inr (), w') ↔ environ w' !! var ≠ Some "")
  ∧ (prompted_by (_set_env var) w' ≠ [] ↔ environ w' !! var = Some "").
Proof.
  intros E. apply set_env_post in E as [v V].
  assert (prompted_by (_set_env var) w' ≠ [] ↔ environ w' !! var = Some "")
    as P.
  { rewrite set_env_prompted, V.
    destruct v; simpl; split; done. }
  split; [|exact P]. split.
  - intros R S. apply P in S. apply S.
    unfold prompted_by. rewrite R. apply drop_all_own.
  - intros N. apply set_env_truthy. rewrite V.
    destruct v; [by destruct N|done].
Qed.

Lemma set_env_twice_witness :
  let w' := (_set_env KEY w_unset).2 in
  _set_env KEY w_unset = (inr (), w') ∧ _set_env KEY w' = (inr (), w').
Proof.
  split; [reflexivity|].
  apply (set_env_twice KEY w_unset (_set_env KEY w_unset).2 eq_refl).
  discriminate.
Defined.

(** X3: an empty answer is stored as it is.  When the variable is unset or
    empty and the user answers the prompt with an empty line, [_set_env]
    returns normally with [var] set to the empty string, and the next call
    prompts again and takes the next line. *)
Theorem set_env_empty_answer var w rest :
  get_truthy (environ w !! var) = false →
  tty_input w = "" :: rest →
  legal_env_name var = true →
  ∃ w', _set_env var w = (inr (), w')
        ∧ environ w' !! var = Some ""
        ∧ tty_input w' = rest
        ∧ prompted_by (_set_env var) w' = [var +:+ ": "].
Proof.
  intros F I Ln. eexists. split; [by eapply set_env_stores|].
  split; [apply lookup_insert_eq|split; [done|]].
  rewrite set_env_prompted. simpl. by rewrite lookup_insert_eq.
Qed.

Lemma set_env_empty_answer_witness :
  ∃ w', _set_env KEY w_enter = (inr (), w')
        ∧ environ w' !! KEY = Some ""
        ∧ tty_input w' = ["sk-1"]
        ∧ prompted_by (_set_env KEY) w' = ["OPENAI_API_KEY: "].
Proof.
  apply (set_env_empty_answer KEY w_enter ["sk-1"]); reflexivity.
Defined.




(** ** Further properties of the node functions *)

(** X6: on a state without the key ["topic"] both node functions raise
    [KeyError("topic")] at once: no request goes to the model, no reply is
    used up, no dictionary is created; the world is as it was. *)
Theorem node_functions_need_topic
    (st : loc) (w : World) (d : gmap string pyval) :
  heap w !! st = Some d → d !! "topic" = None →
  write_joke st w = (inl (KeyError "topic"), w)
  ∧ write_poem st w = (inl (KeyError "topic"), w)
  ∧ requested_by (write_joke st) w = []
  ∧ requested_by (write_poem st) w = [].
Proof.
  intros A T.
  assert (default ∅ (heap w !! st) !! "topic" = None) as K by (by rewrite A).
  assert (write_joke st w = (inl (KeyError "topic"), w)) as J
    by (by apply write_joke_no_topic).
  assert (write_poem st w = (inl (KeyError "topic"), w)) as P
    by (by apply write_poem_no_topic).
  unfold requested_by. rewrite J, P. repeat split; apply drop_all_own.
Qed.

Lemma node_functions_need_topic_witness :
  write_joke 1%positive w_no_topic = (inl (KeyError "topic"), w_no_topic).
Proof.
  apply (node_functions_need_topic 1%positive w_no_topic
           {[ "joke" := VStr "old" ]}); reflexivity.
Defined.

(** Two node calls in a row on the same state, the model replying to
    both. *)
Lemma two_nodes_in_a_row st w d t r1 r2 rest req1 req2 f1 f2
    (node1 node2 : loc → Py loc) :
  (∀ w reply rest,
      default ∅ (heap w !! st) !! "topic" = Some t →
      model_replies w = reply :: rest →
      node1 st w = (inr (fresh (dom (heap w))),
                    after_node req1 f1 reply rest w)) →
  (∀ w reply rest,
      default ∅ (heap w !! st) !! "topic" = Some t →
      model_replies w = reply :: rest →
      node2 st w = (inr (fresh (dom (heap w))),
                    after_node req2 f2 reply rest w)) →
  heap w !! st = Some d → d !! "topic" = Some t →
  model_replies w = r1 :: r2 :: rest →
  ∃ u1 w1 u2 w2,
    node1 st w = (inr u1, w1) ∧ node2 st w1 = (inr u2, w2)
    ∧ u1 ≠ u2 ∧ u1 ≠ st ∧ u2 ≠ st
    ∧ heap w2 !! u1 = Some {[ f1 := VStr (content r1) ]}
    ∧ heap w2 !! u2 = Some {[ f2 := VStr (content r2) ]}
    ∧ heap w2 !! st = Some d
    ∧ model_requests w2 = model_requests w ++ [req1; req2]
    ∧ model_replies w2 = rest.
Proof.
  intros N1 N2 A T R.
  set (u1 := fresh (dom (heap w))).
  set (w1 := after_node req1 f1 r1 (r2 :: rest) w).
  set (u2 := fresh (dom (heap w1))).
  set (w2 := after_node req2 f2 r2 rest w1).
  assert (heap w1 !! st = Some d) as A1.
  { unfold w1. rewrite heap_after_node; [done|by eexists]. }
  assert (heap w1 !! u1 = Some {[ f1 := VStr (content r1) ]}) as U1
    by apply lookup_insert_eq.
  assert (heap w1 !! u2 = None) as F2 by apply fresh_unallocated.
  assert (heap w !! u1 = None) as F1 by apply fresh_unallocated.
  exists u1, w1, u2, w2. repeat split.
  - apply N1; [by rewrite A|done].
  - apply N2; [by rewrite A1|done].
  - intros E. rewrite E in U1. by rewrite U1 in F2.
  - intros E. rewrite E in F1. by rewrite F1 in A.
  - intros E. rewrite E in F2. by rewrite F2 in A1.
  - unfold w2. rewrite heap_after_node; [done|by eexists].
  - apply lookup_insert_eq.
  - unfold w2. rewrite heap_after_node; [done|by eexists].
  - simpl. by rewrite <- app_assoc.
Qed.

(** X7: the two node functions do not get in each other's way.  Called one
    after the other on the same state, in either order, with two replies
    pending, each sends its own request, takes the next reply, and returns
    a dictionary of its own; both updates and the input state are intact
    afterwards. *)
Theorem node_functions_in_a_row
    (st : loc) (w : World) (d : gmap string pyval) (t : pyval)
    (r1 r2 : AIMessage) (rest : list AIMessage) :
  heap w !! st = Some d → d !! "topic" = Some t →
  model_replies w = r1 :: r2 :: rest →
  (∃ uj w1 up w2,
      write_joke st w = (inr uj, w1) ∧ write_poem st w1 = (inr up, w2)
      ∧ uj ≠ up ∧ uj ≠ st ∧ up ≠ st
      ∧ heap w2 !! uj = Some {[ "joke" := VStr (content r1) ]}
      ∧ heap w2 !! up = Some {[ "poem" := VStr (content r2) ]}
      ∧ heap w2 !! st = Some d
      ∧ model_requests w2
        = model_requests w ++ [joke_request t; poem_request t]
      ∧ model_replies w2 = rest)
  ∧ (∃ up w1 uj w2,
      write_poem st w = (inr up, w1) ∧ write_joke st w1 = (inr uj, w2)
      ∧ up ≠ uj ∧ up ≠ st ∧ uj ≠ st
      ∧ heap w2 !! up = Some {[ "poem" := VStr (content r1) ]}
      ∧ heap w2 !! uj = Some {[ "joke" := VStr (content r2) ]}
      ∧ heap w2 !! st = Some d
      ∧ model_requests w2
        = model_requests w ++ [poem_request t; joke_request t]
      ∧ model_replies w2 = rest).
Proof.
  intros A T R. split.
  - eapply two_nodes_in_a_row; eauto;
      intros; [by apply write_joke_reply|by apply write_poem_reply].
  - eapply two_nodes_in_a_row; eauto;
      intros; [by apply write_poem_reply|by apply write_joke_reply].
Qed.

Lemma node_functions_in_a_row_witness :
  ∃ uj w1 up w2,
    write_joke 1%positive w_two_replies = (inr uj, w1)
    ∧ write_poem 1%positive w1 = (inr up, w2)
    ∧ uj ≠ up
    ∧ heap w2 !! uj = Some {[ "joke" := VStr "first" ]}
    ∧ heap w2 !! up = Some {[ "poem" := VStr "second" ]}.
Proof.
  destruct (node_functions_in_a_row 1%positive w_two_replies
              {[ "topic" := VStr "cats" ]} (VStr "cats")
              (mkAI "first") (mkAI "second") [] eq_refl eq_refl eq_refl)
    as [(uj & w1 & up & w2 & J & P & N & _ & _ & Hj & Hp & _) _].
  by exists uj, w1, up, w2.
Defined.

(** X8: the updates of the two nodes meet in the declared state.  From the
    state [{"topic": s}], the updates returned by [write_joke] and
    [write_poem] can be merged in either order with the same result: a
    dictionary that keeps the topic, holds both texts, and conforms to
    [State]. *)
Theorem node_updates_merge_to_State
    (st : loc) (w : World) (s : string)
    (r1 r2 : AIMessage) (rest : list AIMessage) :
  heap w !! st = Some {[ "topic" := VStr s ]} →
  model_replies w = r1 :: r2 :: rest →
  ∃ uj w1 up w2 dj dp,
    write_joke st w = (inr uj, w1) ∧ write_poem st w1 = (inr up, w2)
    ∧ heap w2 !! uj = Some dj ∧ heap w2 !! up = Some dp
    ∧ let merged := merge_update (merge_update {[ "topic" := VStr s ]} dj) dp in
      merged = merge_update (merge_update {[ "topic" := VStr s ]} dp) dj
      ∧ merged !! "topic" = Some (VStr s)
      ∧ merged !! "joke" = Some (VStr (content r1))
      ∧ merged !! "poem" = Some (VStr (content r2))
      ∧ conforms State merged.
Proof.
  intros A R.
  destruct (two_nodes_in_a_row st w {[ "topic" := VStr s ]} (VStr s)
              r1 r2 rest (joke_request (VStr s)) (poem_request (VStr s))
              "joke" "poem" write_joke write_poem)
    as (uj & w1 & up & w2 & J & P & _ & _ & _ & Hj & Hp & _); try done.
  { intros. by apply write_joke_reply. }
  { intros. by apply write_poem_reply. }
  exists uj, w1, up, w2, {[ "joke" := VStr (content r1) ]},
    {[ "poem" := VStr (content r2) ]}.
  do 4 (split; [done|]). cbv zeta. unfold merge_update.
  split; [|split; [|split; [|split]]].
  - apply map_eq. intros k. rewrite !lookup_union.
    destruct (decide (k = "joke")) as [->|Nj]; [done|].
    destruct (decide (k = "poem")) as [->|Np]; [done|].
    by rewrite (lookup_singleton_ne "joke"), (lookup_singleton_ne "poem").
  - done.
  - done.
  - done.
  - intros k. rewrite !lookup_union.
    destruct (decide (k = "joke")) as [->|Nj]; [done|].
    destruct (decide (k = "poem")) as [->|Np]; [done|].
    destruct (decide (k = "topic")) as [->|Nt]; [done|].
    rewrite !lookup_singleton_ne by done. simpl.
    unfold State. simpl.
    by rewrite !lookup_insert_ne, lookup_empty.
Qed.

Lemma node_updates_merge_to_State_witness :
  ∃ uj w1 up w2 dj dp,
    write_joke 1%positive w_two_replies = (inr uj, w1)
    ∧ write_poem 1%positive w1 = (inr up, w2)
    ∧ heap w2 !! uj = Some dj ∧ heap w2 !! up = Some dp
    ∧ conforms State
        (merge_update (merge_update {[ "topic" := VStr "cats" ]} dj) dp).
Proof.
  destruct (node_updates_merge_to_State 1%positive w_two_replies "cats"
              (mkAI "first") (mkAI "second") [] eq_refl eq_refl)
    as (uj & w1 & up & w2 & dj & dp & J & P & Hj & Hp & _ & _ & _ & _ & C).
  by exists uj, w1, up, w2, dj, dp.
Defined.

(** ** Further properties of the streaming loop *)







(** A run on a stream with a broken item: the first token is printed, the
    empty chunk without metadata passes, the next item raises, and the
    last token is never reached. *)
Example streaming_cell_on_broken_items :
  streaming_cell (H := recorder) (H0 := replay broken_items Recorded) w_blank
  = (inl (KeyError "langgraph_node"), set_stdout (λ _, ["In|"]) w_blank).
Proof. reflexivity. Qed.
